(** * The pulsar task-queue backend

    A shallow embedding of [pulsar/apps/tasks/backend.py]: the task record,
    the redis-like store the backend talks to, the queuing protocol, the
    poll-and-dispatch loop, the execution wrapper, the completion waiters and
    the periodic scheduler, followed by the properties proved about them.

    Conventions.
    - A Python method that reads or mutates [self], the store or the outside
      world is a computation in the monad [M]: it threads the [World] and
      either returns a value or raises a Python exception.  Side effects made
      before an exception is raised stay in the world, as in Python.
    - Each coroutine ([yield]) is run to completion: the control loop is
      single threaded and interleavings are taken between whole calls.
    - Time stamps ([time.time()]) are integers in an arbitrary fixed unit;
      [datetime]/[timedelta] values are integers in microseconds, the
      resolution of the Python types.  Only comparisons and sums are used on
      them, which are exact on both sides.
    - Values read from the clock, fresh identifiers and the outcome of a job
      body are inputs of the function that consumes them. *)

From Stdlib Require Import ZArith QArith Qround Qminmax String List Lia.
From stdpp Require Import base gmap sets list strings sorting.

Local Open Scope string_scope.
Local Open Scope Z_scope.

(** ** Task states *)

Module states.

Inductive status : Type :=
| PENDING | QUEUED | RETRY | STARTED | REVOKED | UNKNOWN | FAILURE | SUCCESS.

(** Modelled from the spec: the module [states] imported by backend.py is
    not part of the sources.  The specification lists the statuses in the
    order PENDING, QUEUED, RETRY, STARTED, REVOKED, UNKNOWN, FAILURE,
    SUCCESS and says that a task may be started when its numeric code is
    above the one of STARTED (the pre-execution range); the codes below
    are the precedence numbers in that order, 8 down to 1. *)
Definition code (s : status) : Z :=
  match s with
  | SUCCESS => 1 | FAILURE => 2 | UNKNOWN => 3 | REVOKED => 4
  | STARTED => 5 | RETRY => 6 | QUEUED => 7 | PENDING => 8
  end.


(** Modelled from the spec: FULL_RUN_STATES = FAILURE, SUCCESS. *)
Definition FULL_RUN_STATES : list Z := [code FAILURE; code SUCCESS].

End states.

(** ** Python values, exceptions and the world *)

(** The values stored in a task record.  Keyword arguments are kept as the
    dictionary the caller built, in insertion order; every argument value is
    represented by its [%s] rendering, the only view of it the backend
    takes. *)
Inductive value : Type :=
| VNone
| VNum (z : Z)
| VStr (s : string)
| VArgs (kw : list (string * string)).

#[global] Instance value_eq_dec : EqDecision value.
Proof. solve_decision. Defined.

(** Python truthiness of a value ([if v:]). *)
Definition truthy (v : value) : bool :=
  match v with
  | VNone => false
  | VNum z => negb (z =? 0)
  | VStr s => negb (String.eqb s ""%string)
  | VArgs kw => match kw with [] => false | _ => true end
  end.

Inductive exn : Type :=
| NameError (ident : string)
| AttributeError (attr : string)
| KeyError (key : string)
| TypeError
| ZeroDivisionError
| RuntimeError (msg : string)
| TaskTimeout
| TaskNotAvailable (task_name : string)
| AlreadyCalledError
| JobFailure (summary : string).

Inductive result (A : Type) : Type :=
| Ok (a : A)
| Raise (e : exn).
Arguments Ok {A} a.
Arguments Raise {A} e.

(** A [Task] is an [odm.Model]: a dictionary from field names to values. *)
Abbreviation Task := (gmap string value).

(** What a job body does when it is called with its keyword arguments. *)
Inductive job_outcome : Type :=
| Returns (v : value)
| Raises (summary : string).

(** [can_overlap] is a boolean or a callable over the keyword arguments. *)
Inductive overlap : Type :=
| OverlapBool (b : bool)
| OverlapCall (f : list (string * string) → bool).

Record Job : Type := {
  job_name : string;
  job_timeout : option Z;
  can_overlap : overlap;
  run : list (string * string) → job_outcome
}.

(** The store: redis hashes and lists, by key. *)
Record Store : Type := {
  hashes : gmap string (gmap string value);
  lists : gmap string (list string)
}.

Record Schedule : Type := {
  run_every : Z;
  anchor : option Z
}.

Record SchedulerEntry : Type := {
  entry_name : string;
  schedule : Schedule;
  last_run_at : Z;
  total_run_count : Z
}.

(** The attributes of a [TaskBackend] instance, including the lazily created
    per-worker ones ([concurrent_tasks], [callbacks], [entries],
    [registry]). *)
Record Backend : Type := {
  name : string;
  backlog : Z;
  max_tasks : Z;
  poll_timeout : Z;
  processed : Z;
  schedule_periodic : bool;
  next_run : Z;
  concurrent_tasks : gset string;
  callbacks : gmap string nat;
  entries : list (string * SchedulerEntry);
  registry : gmap string Job
}.

(** The worker handed to the poll loop and to the execution wrapper. *)
Record Worker : Type := {
  is_running : bool;
  thread_pool : bool;
  aid : string
}.

(** What the backend does to its collaborators, in the order it does it:
    commands sent to the store, messages published, calls into the host. *)
Inductive event : Type :=
| Hsetnx (key field : string) (v : value)
| Hmset (key : string) (fields : gmap string value)
| Hgetall (key : string)
| Lpush (key item : string)
| Brpoplpush (src dst : string) (timeout : Z)
| Publish (channel msg : string)
| Log (level msg : string)
| CallLater (delay : Z)
| WorkerStop
| PoolApply (task : Task)
| JobCall (jobname : string) (kwargs : list (string * string)).

(** A [Deferred] is either pending or called back with a task. *)
Record World : Type := {
  be : Backend;
  store : Store;
  deferreds : gmap nat (option Task);
  trace : list event
}.

(** ** The monad of backend computations *)

Definition M (A : Type) : Type := World → result A * World.

Definition ret {A} (a : A) : M A := λ w, (Ok a, w).

Definition bind {A B} (m : M A) (f : A → M B) : M B :=
  λ w, match m w with
       | (Ok a, w') => f a w'
       | (Raise e, w') => (Raise e, w')
       end.

Definition raise {A} (e : exn) : M A := λ w, (Raise e, w).

(** [try: m except e: h e] *)
Definition try_except {A} (m : M A) (h : exn → M A) : M A :=
  λ w, match m w with
       | (Ok a, w') => (Ok a, w')
       | (Raise e, w') => h e w'
       end.

Declare Scope py_scope.
Delimit Scope py_scope with py.
Notation "x <- m ;; k" := (bind m (λ x, k))
  (at level 100, m at next level, right associativity) : py_scope.
Notation "m ;;; k" := (bind m (λ _, k))
  (at level 100, right associativity) : py_scope.
Local Open Scope py_scope.

Definition get_be : M Backend := λ w, (Ok (be w), w).

Definition set_be (f : Backend → Backend) : M unit :=
  λ w, (Ok tt, {| be := f (be w); store := store w;
                  deferreds := deferreds w; trace := trace w |}).

Definition get_store : M Store := λ w, (Ok (store w), w).

Definition set_store (f : Store → Store) : M unit :=
  λ w, (Ok tt, {| be := be w; store := f (store w);
                  deferreds := deferreds w; trace := trace w |}).

Definition emit (e : event) : M unit :=
  λ w, (Ok tt, {| be := be w; store := store w;
                  deferreds := deferreds w; trace := trace w ++ [e] |}).

Definition get_deferreds : M (gmap nat (option Task)) :=
  λ w, (Ok (deferreds w), w).

Definition set_deferreds (f : gmap nat (option Task) → gmap nat (option Task)) : M unit :=
  λ w, (Ok tt, {| be := be w; store := store w;
                  deferreds := f (deferreds w); trace := trace w |}).

(** ** Dictionary access on a task *)

(** [task[key]] *)
Definition getitem (task : Task) (key : string) : M value :=
  match task !! key with
  | Some v => ret v
  | None => raise (KeyError key)
  end.

(** [task.get(key)] *)
Definition get (task : Task) (key : string) : value :=
  default VNone (task !! key).

(** [task['id']], a [CharField]: the identifier is a string. *)
Definition getitem_id (task : Task) : M string :=
  v <- getitem task "id" ;;
  match v with
  | VStr s => ret s
  | _ => raise TypeError
  end.

(** [v > c] for a numeric field. *)
Definition gt_num (v : value) (c : Z) : M bool :=
  match v with
  | VNum z => ret (c <? z)
  | _ => raise TypeError
  end.

(** ** The store commands *)

Definition hash_at (st : Store) (key : string) : gmap string value :=
  default ∅ (hashes st !! key).

Definition list_at (st : Store) (key : string) : list string :=
  default [] (lists st !! key).

(** HSETNX: set the field only when it is absent; tells whether it did. *)
Definition hsetnx (key field : string) (v : value) : M bool :=
  emit (Hsetnx key field v) ;;;
  st <- get_store ;;
  match hash_at st key !! field with
  | Some _ => ret false
  | None =>
      set_store (λ st, {| hashes := <[key := <[field := v]> (hash_at st key)]> (hashes st);
                          lists := lists st |}) ;;;
      ret true
  end.

(** HMSET: set the given fields, keep the others. *)
Definition hmset (key : string) (fields : gmap string value) : M unit :=
  emit (Hmset key fields) ;;;
  set_store (λ st, {| hashes := <[key := fields ∪ hash_at st key]> (hashes st);
                      lists := lists st |}).

(** HGETALL *)
Definition hgetall (key : string) : M (gmap string value) :=
  emit (Hgetall key) ;;;
  st <- get_store ;;
  ret (hash_at st key).

(** LPUSH: push at the head. *)
Definition lpush (key item : string) : M unit :=
  emit (Lpush key item) ;;;
  set_store (λ st, {| hashes := hashes st;
                      lists := <[key := item :: list_at st key]> (lists st) |}).

(** BRPOPLPUSH: pop the tail of [src] and push it at the head of [dst];
    nothing when [src] is still empty after [timeout]. *)
Definition brpoplpush (src dst : string) (timeout : Z) : M (option string) :=
  emit (Brpoplpush src dst timeout) ;;;
  st <- get_store ;;
  match last (list_at st src) with
  | None => ret None
  | Some item =>
      set_store (λ st,
        let lists1 := <[src := removelast (list_at st src)]> (lists st) in
        {| hashes := hashes st;
           lists := <[dst := item :: default [] (lists1 !! dst)]> lists1 |}) ;;;
      ret (Some item)
  end.

(** ** Task *)

(** [Task.done]: [self.get('state') in self.READY_STATES].  The field is
    read first; [READY_STATES] is then looked up as an attribute of the
    task, and neither the class [Task] nor backend.py defines it (the set
    of the ready states is an attribute of the module [states]): the
    lookup fails, whatever the record holds. *)
Definition done (self : Task) : M bool :=
  let state := get self "state" in
  raise (AttributeError "READY_STATES").

(** [Task.info]: the body evaluates the name [task], which is bound neither
    in the method (its parameter is [self]) nor in the module. *)
Definition info (self : Task) : M string :=
  raise (NameError "task").

(** [str(task.lazy_info())]: forcing the lazy string calls [info]. *)
Definition lazy_info_str (self : Task) : M string :=
  info self.

(** [Task.load_kwargs] *)
Definition load_kwargs (self : Task) : M (list (string * string)) :=
  let kwargs := get self "kwargs" in
  if truthy kwargs then
    match kwargs with
    | VArgs kw => ret kw
    | _ => raise TypeError
    end
  else ret [].

(** ** PulsarTaskBackend: the store-backed methods *)

(** [TaskBackend.channel] *)
Definition channel (self : Backend) (suffix : string) : string :=
  (name self ++ "_" ++ suffix)%string.

Definition task_key (self : Backend) (task_id : string) : string :=
  channel self ("task:" ++ task_id)%string.

(** [PulsarTaskBackend.pubsub]: the handler is created once and subscribed
    to the three channels; nothing of it is observed here. *)
Definition pubsub : M unit := ret tt.

(** [PulsarTaskBackend.maybe_queue_task] *)
Definition maybe_queue_task (task : Task) : M (option Task) :=
  self <- get_be ;;
  lock_id <- getitem task "lock_id" ;;
  free <- (if truthy lock_id
           then id <- getitem task "id" ;;
                match lock_id with
                | VStr l => hsetnx (channel self "locks") l id
                | _ => raise TypeError
                end
           else ret true) ;;
  if free : bool then
    id <- getitem_id task ;;
    hmset (task_key self id) task ;;;
    lpush (channel self "inqueue") id ;;;
    ret (Some task)
  else ret None.

(** [PulsarTaskBackend.get_task] *)
Definition get_task (task_id : option string) : M (option Task) :=
  self <- get_be ;;
  polled <- match task_id with
            | Some i => if String.eqb i "" then
                          brpoplpush (channel self "inqueue") (channel self "outqueue")
                                     (poll_timeout self)
                        else ret (Some i)
            | None => brpoplpush (channel self "inqueue") (channel self "outqueue")
                                 (poll_timeout self)
            end ;;
  match polled with
  | None => ret None
  | Some i =>
      if String.eqb i "" then ret None else
      task <- hgetall (task_key self i) ;;
      if bool_decide (task = ∅) then ret None else ret (Some task)
  end.

(** [PulsarTaskBackend.save_task] *)
Definition save_task (task_id : string) (params : gmap string value) : M unit :=
  self <- get_be ;;
  hmset (task_key self task_id) params.

(** ** Schedule and SchedulerEntry *)

(** [timedelta_seconds]: [max(delta.total_seconds(), 0)], the duration in
    seconds, never negative. *)
Definition timedelta_seconds (delta : Z) : Q :=
  Qred (Z.max delta 0 # 1000000).

(** [datetime.now()]: backend.py imports only [timedelta] from [datetime],
    so the name [datetime] is unbound where the default is computed. *)
Definition datetime_now {A} : result A := Raise (NameError "datetime").

(** [now or datetime.now()] *)
Definition now_or_default (now : option Z) : result Z :=
  match now with
  | Some n => Ok n
  | None => datetime_now
  end.

(** [Schedule.is_due] *)
Definition Schedule_is_due (self : Schedule) (last_run_at : Z) (now : option Z)
  : result (bool * Q) :=
  match now_or_default now with
  | Raise e => Raise e
  | Ok now =>
      let rem_delta := last_run_at + run_every self - now in
      let rem := timedelta_seconds rem_delta in
      if Qeq_bool rem 0 then Ok (true, timedelta_seconds (run_every self))
      else Ok (false, rem)
  end.

(** [while anchor <= last_run_at: anchor += run_every] *)
Fixpoint anchor_forward (fuel : nat) (anchor last_run_at run_every : Z) : Z :=
  match fuel with
  | O => anchor
  | S fuel' =>
      if anchor <=? last_run_at
      then anchor_forward fuel' (anchor + run_every) last_run_at run_every
      else anchor
  end.

(** [while anchor > last_run_at: anchor -= run_every] *)
Fixpoint anchor_backward (fuel : nat) (anchor last_run_at run_every : Z) : Z :=
  match fuel with
  | O => anchor
  | S fuel' =>
      if last_run_at <? anchor
      then anchor_backward fuel' (anchor - run_every) last_run_at run_every
      else anchor
  end.

(** [SchedulerEntry.scheduled_last_run_at]: the value of the property, and
    the entry after the property has stored the advanced anchor in its
    schedule.  The two loops run with [run_every] positive (the division
    before them raised otherwise), so the distance to [last_run_at] bounds
    their length. *)
Definition scheduled_last_run_at (self : SchedulerEntry)
  : result Z * SchedulerEntry :=
  match anchor (schedule self) with
  | None => (Ok (last_run_at self), self)
  | Some anchor0 =>
      let every := run_every (schedule self) in
      let num := timedelta_seconds (last_run_at self - anchor0) in
      let den := timedelta_seconds every in
      if Qeq_bool den 0 then (Raise ZeroDivisionError, self) else
      let times := Qfloor (num / den) in
      if times =? 0 then (Ok anchor0, self) else
      let a1 := anchor0 + times * every in
      let a2 := anchor_forward (Z.to_nat (last_run_at self - a1 + 1)) a1
                               (last_run_at self) every in
      let a3 := anchor_backward (Z.to_nat (a2 - last_run_at self)) a2
                                (last_run_at self) every in
      (Ok a3, {| entry_name := entry_name self;
                 schedule := {| run_every := every; anchor := Some a3 |};
                 last_run_at := last_run_at self;
                 total_run_count := total_run_count self |})
  end.

(** [SchedulerEntry.next] *)
Definition SchedulerEntry_next (self : SchedulerEntry) (now : option Z)
  : result SchedulerEntry :=
  match now_or_default now with
  | Raise e => Raise e
  | Ok now =>
      Ok {| entry_name := entry_name self;
            schedule := schedule self;
            last_run_at := now;
            total_run_count := total_run_count self + 1 |}
  end.

(** [SchedulerEntry.is_due] *)
Definition SchedulerEntry_is_due (self : SchedulerEntry) (now : option Z)
  : result (bool * Q) * SchedulerEntry :=
  match scheduled_last_run_at self with
  | (Raise e, self') => (Raise e, self')
  | (Ok last, self') => (Schedule_is_due (schedule self') last now, self')
  end.

(** Lifting a pure outcome into [M]. *)
Definition lift {A} (r : result A) : M A := λ w, (r, w).

(** [self.entries[name] = entry], on the dictionary in iteration order. *)
Fixpoint set_entry (name0 : string) (entry : SchedulerEntry)
  (es : list (string * SchedulerEntry)) : list (string * SchedulerEntry) :=
  match es with
  | [] => []
  | (n, e) :: es' =>
      if String.eqb n name0 then (n, entry) :: es'
      else (n, e) :: set_entry name0 entry es'
  end.

(** [self.entries.get(name)] *)
Fixpoint get_entry (name0 : string) (es : list (string * SchedulerEntry))
  : option SchedulerEntry :=
  match es with
  | [] => None
  | (n, e) :: es' => if String.eqb n name0 then Some e else get_entry name0 es'
  end.

Definition with_entries (es : list (string * SchedulerEntry)) (self : Backend) : Backend :=
  {| name := name self; backlog := backlog self; max_tasks := max_tasks self;
     poll_timeout := poll_timeout self; processed := processed self;
     schedule_periodic := schedule_periodic self; next_run := next_run self;
     concurrent_tasks := concurrent_tasks self; callbacks := callbacks self;
     entries := es; registry := registry self |}.

Definition with_next_run (t : Z) (self : Backend) : Backend :=
  {| name := name self; backlog := backlog self; max_tasks := max_tasks self;
     poll_timeout := poll_timeout self; processed := processed self;
     schedule_periodic := schedule_periodic self; next_run := t;
     concurrent_tasks := concurrent_tasks self; callbacks := callbacks self;
     entries := entries self; registry := registry self |}.

Definition with_processed (n : Z) (self : Backend) : Backend :=
  {| name := name self; backlog := backlog self; max_tasks := max_tasks self;
     poll_timeout := poll_timeout self; processed := n;
     schedule_periodic := schedule_periodic self; next_run := next_run self;
     concurrent_tasks := concurrent_tasks self; callbacks := callbacks self;
     entries := entries self; registry := registry self |}.

Definition with_concurrent_tasks (s : gset string) (self : Backend) : Backend :=
  {| name := name self; backlog := backlog self; max_tasks := max_tasks self;
     poll_timeout := poll_timeout self; processed := processed self;
     schedule_periodic := schedule_periodic self; next_run := next_run self;
     concurrent_tasks := s; callbacks := callbacks self;
     entries := entries self; registry := registry self |}.

Definition with_callbacks (c : gmap string nat) (self : Backend) : Backend :=
  {| name := name self; backlog := backlog self; max_tasks := max_tasks self;
     poll_timeout := poll_timeout self; processed := processed self;
     schedule_periodic := schedule_periodic self; next_run := next_run self;
     concurrent_tasks := concurrent_tasks self; callbacks := c;
     entries := entries self; registry := registry self |}.

(** In-place updates of the attributes of [self]. *)
Definition update_entries
  (f : list (string * SchedulerEntry) → list (string * SchedulerEntry))
  (self : Backend) : Backend :=
  with_entries (f (entries self)) self.

Definition update_callbacks (f : gmap string nat → gmap string nat)
  (self : Backend) : Backend :=
  with_callbacks (f (callbacks self)) self.

Definition update_concurrent_tasks (f : gset string → gset string)
  (self : Backend) : Backend :=
  with_concurrent_tasks (f (concurrent_tasks self)) self.

Definition update_processed (f : Z → Z) (self : Backend) : Backend :=
  with_processed (f (processed self)) self.

(** [s.add(i)] and [s.discard(i)] on a set. *)
Definition set_add (i : string) (s : gset string) : gset string := {[i]} ∪ s.
Definition set_discard (i : string) (s : gset string) : gset string := s ∖ {[i]}.

(** ** TaskBackend *)

(** [TaskBackend.__init__].  The clock gives [next_run]; the registry and the
    schedule entries, which the class loads on first use, are given with the
    other arguments (there are no entries unless [schedule_periodic]). *)
Definition TaskBackend_init (schedule_periodic0 : bool) (backlog0 max_tasks0 : Z)
  (name0 : string) (poll_timeout0 : option Z) (now : Z)
  (registry0 : gmap string Job) (entries0 : list (string * SchedulerEntry)) : Backend :=
  {| name := name0;
     backlog := backlog0;
     max_tasks := max_tasks0;
     poll_timeout := Z.max (default 0 poll_timeout0) 2;
     processed := 0;
     schedule_periodic := schedule_periodic0;
     next_run := now;
     concurrent_tasks := ∅;
     callbacks := ∅;
     entries := if schedule_periodic0 then entries0 else [];
     registry := registry0 |}.

(** [TaskBackend.num_concurrent_tasks] *)
Definition num_concurrent_tasks (self : Backend) : Z :=
  Z.of_nat (size (concurrent_tasks self)).

(** The dictionary of keyword arguments: [kwargs[k]]. *)
Fixpoint kw_get (k : string) (kwargs : list (string * string)) : string :=
  match kwargs with
  | [] => ""
  | (k', v) :: rest => if String.eqb k' k then v else kw_get k rest
  end.

(** [sorted(kwargs)]: the keys in increasing order. *)
Definition sorted_keys (kwargs : list (string * string)) : list string :=
  merge_sort String.le (kwargs.*1).

(** The text that is hashed into the lock identifier. *)
Definition lock_name (self : Backend) (kwargs : list (string * string)) : string :=
  match kwargs with
  | [] => name self
  | _ =>
      let kw := map (λ k, k ++ "=" ++ kw_get k kwargs)%string (sorted_keys kwargs) in
      (name self ++ " " ++ String.concat ", " kw)%string
  end.

(** [job.can_overlap], called with the arguments when it is callable. *)
Definition resolve_can_overlap (job : Job) (kwargs : list (string * string)) : bool :=
  match can_overlap job with
  | OverlapBool b => b
  | OverlapCall f => f kwargs
  end.

(** What [wait_for_task] hands back: the value it resolved with, or the
    pending [Deferred] the caller is suspended on. *)
Inductive waiter : Type :=
| Resolved (task : option Task)
| Suspended (when_done : nat).

(** How the [try] block of [_execute_task] is left when it does not raise:
    by falling through with a status and a result, or by
    [coroutine_return].

    Modelled from the spec: [coroutine_return] comes from pulsar's coroutine
    support, which is not part of the sources.  The specification has the
    poll loop "not reschedule" after it and the execution wrapper "abandon"
    the task "without completing persistence": it ends the coroutine at
    once with the given value and is not an error that [except Exception]
    catches. *)
Inductive flow : Type :=
| Completed (status : Z) (res : value)
| Returned (task_id : string).

(** [str(Failure(sys.exc_info()))]: the summary of the captured exception. *)
Definition failure_str (e : exn) : string :=
  match e with
  | JobFailure summary => summary
  | NameError ident => ("NameError: " ++ ident)%string
  | AttributeError attr => ("AttributeError: " ++ attr)%string
  | KeyError key => ("KeyError: " ++ key)%string
  | TypeError => "TypeError"
  | ZeroDivisionError => "ZeroDivisionError"
  | RuntimeError msg => ("RuntimeError: " ++ msg)%string
  | TaskTimeout => "TaskTimeout"
  | TaskNotAvailable n => ("TaskNotAvailable: " ++ n)%string
  | AlreadyCalledError => "AlreadyCalledError"
  end.

(** [Deferred()] *)
Definition new_deferred : M nat :=
  ds <- get_deferreds ;;
  let d := fresh (dom ds) in
  set_deferreds (λ ds, <[d := None]> ds) ;;;
  ret d.

(** [when_done.callback(task)] *)
Definition callback (when_done : nat) (task : Task) : M unit :=
  ds <- get_deferreds ;;
  match ds !! when_done with
  | Some (Some _) => raise AlreadyCalledError
  | _ => set_deferreds (λ ds, <[when_done := Some task]> ds)
  end.

Section TaskBackend.

(** [hashlib.sha1(...).hexdigest()], a function of the text. *)
Variable sha1 : string → string.

(** [TaskBackend.generate_task_ids]; [uid] is what [gen_unique_id()]
    returns. *)
Definition generate_task_ids (self : Backend) (job : Job)
  (kwargs : list (string * string)) (uid : string) : string * option string :=
  let can_overlap := resolve_can_overlap job kwargs in
  let tid := String.substring 0 8 uid in
  if can_overlap then (tid, None)
  else (tid, Some (sha1 (lock_name self kwargs))).

(** [self.pop_callback(task.id)] in [wait_for_task]: neither
    [TaskBackend] nor [PulsarTaskBackend] defines a method of this name,
    so the lookup of the attribute fails, before [task.id] is read. *)
Definition pop_callback (task : Task) : M (option nat) :=
  raise (AttributeError "pop_callback").

(** [TaskBackend.queue_task]; [uid] and [queued] are what
    [gen_unique_id()] and [time.time()] return. *)
Definition queue_task (jobname : string) (meta_params : Task)
  (expiry : option Z) (kwargs : list (string * string))
  (uid : string) (queued : Z) : M unit :=
  pubsub ;;;
  self <- get_be ;;
  match registry self !! jobname with
  | Some job =>
      let '(task_id, lock_id) := generate_task_ids self job kwargs uid in
      let expiry :=
        match expiry with
        | Some e => VNum (queued + e)
        | None =>
            match job_timeout job with
            | Some t => if t =? 0 then VNone else VNum (queued + t)
            | None => VNone
            end
        end in
      let task : Task :=
        <["id" := VStr task_id]>
        (<["lock_id" := from_option VStr VNone lock_id]>
        (<["name" := VStr (job_name job)]>
        (<["time_queued" := VNum queued]>
        (<["expiry" := expiry]>
        (<["kwargs" := VArgs kwargs]>
        (<["status" := VNum (states.code states.QUEUED)]> ∅)))))) in
      let task := meta_params ∪ task in
      queued_task <- maybe_queue_task task ;;
      match queued_task with
      | Some task =>
          id <- getitem_id task ;;
          emit (Publish (channel self "task_queued") id) ;;;
          match get_entry (job_name job) (entries self) with
          | Some entry =>
              entry' <- lift (SchedulerEntry_next entry None) ;;
              set_be (update_entries (set_entry (job_name job) entry'))
          | None => ret tt
          end ;;;
          emit (Log "debug" "%s")
      | None => emit (Log "debug" "%s cannot queue new task")
      end
  | None => raise (TaskNotAvailable jobname)
  end.

(** [TaskBackend.wait_for_task] (the time-out only cancels the caller's
    wait and is left out). *)
Definition wait_for_task (task_id : string) : M waiter :=
  pubsub ;;;
  task <- get_task (Some task_id) ;;
  match task with
  | Some task =>
      finished <- done task ;;
      if finished : bool then
        when_done <- pop_callback task ;;
        match when_done with
        | Some d => callback d task
        | None => ret tt
        end ;;;
        ret (Resolved (Some task))
      else
        self <- get_be ;;
        match callbacks self !! task_id with
        | Some d => ret (Suspended d)
        | None =>
            d <- new_deferred ;;
            set_be (update_callbacks (<[task_id := d]>)) ;;;
            ret (Suspended d)
        end
  | None => ret (Resolved None)
  end.

(** [TaskBackend.task_done_callback] *)
Definition task_done_callback (task_id : string) : M unit :=
  task <- get_task (Some task_id) ;;
  match task with
  | Some task =>
      self <- get_be ;;
      set_be (update_callbacks (delete task_id)) ;;;
      match callbacks self !! task_id with
      | Some d => callback d task
      | None => ret tt
      end
  | None => ret tt
  end.

(** [self.run_job(entry.name)] in [tick]: neither [TaskBackend] nor
    [PulsarTaskBackend] defines a method of this name, so the lookup of the
    attribute fails. *)
Definition run_job (jobname : string) : M unit :=
  raise (AttributeError "run_job").

(** The body of the loop of [tick] for the entry called [name0]: the
    due-check, the call of [run_job] when due, and the entry's next time to
    run.  The entry is read where the dictionary holds it, since the
    due-check updates it in place (the names come from the dictionary, so
    the entry is there). *)
Definition tick_entry (name0 : string) (now : option Z) : M Q :=
  self <- get_be ;;
  match get_entry name0 (entries self) with
  | None => ret 0%Q
  | Some entry =>
      let '(due, entry') := SchedulerEntry_is_due entry now in
      set_be (update_entries (set_entry name0 entry')) ;;;
      r <- lift due ;;
      let '(is_due, next_time_to_run) := r in
      (if is_due : bool then run_job (entry_name entry') else ret tt) ;;;
      ret next_time_to_run
  end.

(** The [for] loop of [tick]: it stops at the first entry that raises;
    [remaining_times] keeps what was appended until then. *)
Fixpoint tick_loop (names : list string) (now : option Z)
  (remaining_times : list Q) (w : World) : (result unit * list Q) * World :=
  match names with
  | [] => ((Ok tt, remaining_times), w)
  | name0 :: names' =>
      match tick_entry name0 now w with
      | (Ok next_time_to_run, w') =>
          tick_loop names' now
            (if Qeq_bool next_time_to_run 0 then remaining_times
             else remaining_times ++ [next_time_to_run]) w'
      | (Raise e, w') => ((Raise e, remaining_times), w')
      end
  end.

(** [min(remaining_times)] of a list that is not empty. *)
Definition min_remaining (first : Q) (others : list Q) : Q :=
  fold_left Qmin others first.

(** [TaskBackend.tick] *)
Definition tick (now : option Z) : M unit :=
  self <- get_be ;;
  if negb (schedule_periodic self) then ret tt else
  remaining_times <-
    (λ w, match tick_loop (entries self).*1 now [] w with
          | ((Ok _, rts), w') => (Ok rts, w')
          | ((Raise _, rts), w') =>
              (Ok rts, (emit (Log "exception" "Unhandled error in task backend") w').2)
          end) ;;
  now <- lift (now_or_default now) ;;
  match remaining_times with
  | [] => set_be (with_next_run now)
  | first :: others =>
      set_be (with_next_run (now + Qfloor (min_remaining first others * 1000000)))
  end.

(** The [try] block of [_execute_task]. *)
Definition execute_try (worker : Worker) (task : Task) (task_id : string)
  (time_ended : Z) : M flow :=
  self <- get_be ;;
  let job := match get task "name" with
             | VStr n => registry self !! n
             | _ => None
             end in
  match job with
  | None =>
      i <- lazy_info_str task ;;
      raise (RuntimeError (i ++ " not in registry"))
  | Some job =>
      status <- getitem task "status" ;;
      fresh_task <- gt_num status (states.code states.STARTED) ;;
      if fresh_task : bool then
        expiry <- getitem task "expiry" ;;
        expired <- (if truthy expiry then
                      match expiry with
                      | VNum e => ret (e <? time_ended)
                      | _ => raise TypeError
                      end
                    else ret false) ;;
        if expired : bool then raise TaskTimeout
        else
          emit (Log "info" "starting task %s") ;;;
          save_task task_id
            (<["status" := VNum (states.code states.STARTED)]>
            (<["time_started" := VNum time_ended]>
            (<["worker" := VStr (aid worker)]> ∅))) ;;;
          emit (Publish (channel self "task_started") task_id) ;;;
          kwargs <- load_kwargs task ;;
          emit (JobCall (job_name job) kwargs) ;;;
          match run job kwargs with
          | Returns v => ret (Completed (states.code states.SUCCESS) v)
          | Raises summary => raise (JobFailure summary)
          end
      else
        emit (Log "error" "Invalid status for %s") ;;;
        set_be (update_concurrent_tasks (set_discard task_id)) ;;;
        ret (Returned task_id)
  end.

(** The [except] clauses of [_execute_task]. *)
Definition execute_except (task : Task) (e : exn) : M flow :=
  match e with
  | TaskTimeout =>
      emit (Log "info" "%s timed-out") ;;;
      ret (Completed (states.code states.REVOKED) VNone)
  | _ =>
      i <- info task ;;
      emit (Log "error" ("Failure in " ++ i)) ;;;
      ret (Completed (states.code states.FAILURE) (VStr (failure_str e)))
  end.

(** [TaskBackend._execute_task]; [time_ended] and [finished] are what
    [time.time()] returns when the task is taken up and when it ends. *)
Definition _execute_task (worker : Worker) (task : Task)
  (time_ended finished : Z) : M string :=
  pubsub ;;;
  task_id <- getitem_id task ;;
  outcome <- try_except (execute_try worker task task_id time_ended)
                        (execute_except task) ;;
  match outcome with
  | Returned i => ret i
  | Completed status res =>
      save_task task_id
        (<["time_ended" := VNum finished]>
        (<["status" := VNum status]>
        (<["result" := res]> ∅))) ;;;
      emit (Log "info" "Finished task %s") ;;;
      set_be (update_concurrent_tasks (set_discard task_id)) ;;;
      self <- get_be ;;
      emit (Publish (channel self "task_done") task_id) ;;;
      ret task_id
  end.

(** [TaskBackend.may_pool_task].  The inner computation gives [None] when
    the coroutine ends by [coroutine_return], else the value of
    [next_time]. *)
Definition may_pool_task (worker : Worker) : M unit :=
  self <- get_be ;;
  next_time <-
    (if is_running worker then
       if negb (thread_pool worker) then
         emit (Log "warning" "No thread pool, cannot poll tasks.") ;;;
         ret (Some 0)
       else if num_concurrent_tasks self <? backlog self then
         if negb (max_tasks self =? 0) && (max_tasks self <=? processed self) then
           if num_concurrent_tasks self =? 0 then
             emit (Log "warning" "Processed %s tasks. Restarting.") ;;;
             emit WorkerStop ;;;
             ret None
           else ret (Some 0)
         else
           task <- get_task None ;;
           match task with
           | Some task =>
               set_be (update_processed (λ n, n + 1)) ;;;
               id <- getitem_id task ;;
               set_be (update_concurrent_tasks (set_add id)) ;;;
               emit (PoolApply task) ;;;
               ret (Some 0)
           | None => ret (Some 0)
           end
       else
         emit (Log "info" "%s concurrent requests. Cannot poll.") ;;;
         ret (Some 1)
     else ret (Some 0)) ;;
  match next_time with
  | Some delay => emit (CallLater delay)
  | None => ret tt
  end.

(** ** The backend at work *)

(** What can happen to a backend, one call at a time. *)
Inductive action : Type :=
| Queue (jobname : string) (meta_params : Task) (expiry : option Z)
        (kwargs : list (string * string)) (uid : string) (queued : Z)
| Poll (worker : Worker)
| Execute (worker : Worker) (task : Task) (time_ended finished : Z)
| Wait (task_id : string)
| TaskDone (task_id : string)
| Tick (now : option Z).

Definition perform (a : action) (w : World) : World :=
  match a with
  | Queue jobname meta_params expiry kwargs uid queued =>
      (queue_task jobname meta_params expiry kwargs uid queued w).2
  | Poll worker => (may_pool_task worker w).2
  | Execute worker task time_ended finished =>
      (_execute_task worker task time_ended finished w).2
  | Wait task_id => (wait_for_task task_id w).2
  | TaskDone task_id => (task_done_callback task_id w).2
  | Tick now => (tick now w).2
  end.

Definition perform_all (acts : list action) (w : World) : World :=
  fold_left (λ w a, perform a w) acts w.

End TaskBackend.

(** ** Notions used by the properties *)

(** A computation keeps a relation between the world before and after. *)
Definition preserves {A} (R : relation World) (m : M A) : Prop :=
  ∀ w, R w (m w).2.

(** Events other than the hand-over of a task to the thread pool. *)
Definition benign (e : event) : Prop :=
  match e with
  | PoolApply _ => False
  | _ => True
  end.

(** A relation between worlds that every step of the backend keeps, the
    poll loop apart: it is a preorder, it does not look at the store, at the
    deferreds or at benign events, and it allows the updates of the
    scheduler entries, of [next_run], of the callbacks and the discard of a
    task identifier. *)
Class Frame (R : relation World) : Prop := {
  frame_preorder :: PreOrder R;
  frame_store f w : R w (set_store f w).2;
  frame_deferreds f w : R w (set_deferreds f w).2;
  frame_emit e w : benign e → R w (emit e w).2;
  frame_entries f w : R w (set_be (update_entries f) w).2;
  frame_next_run t w : R w (set_be (with_next_run t) w).2;
  frame_callbacks f w : R w (set_be (update_callbacks f) w).2;
  frame_discard i w : R w (set_be (update_concurrent_tasks (set_discard i)) w).2
}.

(** The tasks handed to the thread pool, in order. *)
Definition dispatched (tr : list event) : list Task :=
  omap (λ e, match e with PoolApply t => Some t | _ => None end) tr.

(** The store polls ([BRPOPLPUSH]) in a trace. *)
Definition is_poll (e : event) : bool :=
  match e with
  | Brpoplpush _ _ _ => true
  | _ => false
  end.

Definition polls (tr : list event) : list event :=
  List.filter is_poll tr.

(** [poll_timeout] is left as it is. *)
Definition same_poll_timeout : relation World :=
  λ w w', poll_timeout (be w') = poll_timeout (be w).

(** [backlog] is left as it is and the concurrency set stays within it. *)
Definition keeps_backlog : relation World :=
  λ w w', backlog (be w') = backlog (be w) ∧
          (num_concurrent_tasks (be w) ≤ backlog (be w) →
           num_concurrent_tasks (be w') ≤ backlog (be w')).

(** The worker has processed its share: [max_tasks] is set and reached. *)
Definition drained (self : Backend) : Prop :=
  max_tasks self ≠ 0 ∧ max_tasks self ≤ processed self.

(** [max_tasks] is left as it is, [processed] does not decrease, and a
    drained backend dispatches nothing. *)
Definition keeps_drained : relation World :=
  λ w w', max_tasks (be w') = max_tasks (be w) ∧
          processed (be w) ≤ processed (be w') ∧
          (drained (be w) → dispatched (trace w') = dispatched (trace w)).

(** A duration given in microseconds, in seconds. *)
Definition seconds (microseconds : Z) : Q :=
  Qred (microseconds # 1000000).

(** The world of a backend that has just been constructed. *)
Definition initial (self : Backend) (st : Store) : World :=
  {| be := self; store := st; deferreds := ∅; trace := [] |}.

(** The calls of job bodies in a trace. *)
Definition is_job_call (e : event) : bool :=
  match e with
  | JobCall _ _ => true
  | _ => false
  end.

Definition job_calls (tr : list event) : list event :=
  List.filter is_job_call tr.

(** The status, if any, that a store command writes in the hash [key]. *)
Definition status_written (key : string) (e : event) : option Z :=
  match e with
  | Hmset k fields =>
      if String.eqb k key then
        match fields !! "status" with
        | Some (VNum s) => Some s
        | _ => None
        end
      else None
  | _ => None
  end.

(** The statuses persisted in the hash [key], in the order of the trace. *)
Definition persisted_statuses (key : string) (tr : list event) : list Z :=
  omap (status_written key) tr.


(** What a computation adds to the trace of the world it starts in. *)
Definition new_events {A} (m : M A) (w : World) : list event :=
  drop (length (trace w)) (trace (m w).2).

(** The trace only grows. *)
Definition extends : relation World :=
  λ w w', ∃ evs, trace w' = (trace w ++ evs)%list.

(** [name] and [registry] are left as they are. *)
Definition same_identity : relation World :=
  λ w w', name (be w') = name (be w) ∧ registry (be w') = registry (be w).

(** ** A small deployment, for the examples *)

Module demo.

(** A stand-in for the digest in the examples: equal texts give equal
    keys, and no key is empty. *)
Definition digest (s : string) : string := ("sha1:" ++ s)%string.

Definition send_email : Job :=
  {| job_name := "send_email"; job_timeout := None;
     can_overlap := OverlapBool false;
     run := λ _, Returns (VStr "sent") |}.

Definition resize : Job :=
  {| job_name := "resize"; job_timeout := Some 30;
     can_overlap := OverlapBool true;
     run := λ _, Raises "ValueError: bad image" |}.

Definition jobs : gmap string Job :=
  <["send_email" := send_email]> (<["resize" := resize]> ∅).

(** A backend called mail: backlog 1, at most one task per worker life. *)
Definition mail : Backend :=
  TaskBackend_init false 1 1 "mail" None 100 jobs [].

Definition worker1 : Worker :=
  {| is_running := true; thread_pool := true; aid := "worker-1" |}.

Definition world0 : World :=
  initial mail {| hashes := ∅; lists := ∅ |}.

Definition kw_ab : list (string * string) := [("a", "1"); ("b", "2")].


(** The backend after a request for [resize] at time 100, which sets the
    expiry of the task to 130, and one iteration of the poll loop. *)
Definition polled : World :=
  perform_all digest
    [Queue "resize" ∅ None [] "33333333" 100; Poll worker1] world0.

(** The record that the poll loop handed to the thread pool. *)
Definition resize_task : Task :=
  hash_at (store polled) "mail_task:33333333".

(** The backend after a request for [send_email] at time 100. *)
Definition requested : World :=
  (queue_task digest "send_email" ∅ None kw_ab "11111111" 100 world0).2.

(** The same backend once the poll loop has taken the task and the
    thread pool has run it, from time 105 to time 106. *)
Definition finished_email : World :=
  perform_all digest
    [Poll worker1;
     Execute worker1 (hash_at (store requested) "mail_task:11111111") 105 106]
    requested.

(** A periodic definition that cannot be evaluated (it repeats every 0
    seconds from an anchor), and one that is due 61 seconds after its
    last run. *)
Definition bad_entry : SchedulerEntry :=
  {| entry_name := "resize";
     schedule := {| run_every := 0; anchor := Some 0 |};
     last_run_at := 50; total_run_count := 0 |}.

Definition good_entry : SchedulerEntry :=
  {| entry_name := "send_email";
     schedule := {| run_every := 60000000; anchor := None |};
     last_run_at := 0; total_run_count := 0 |}.

(** A backend that schedules the periodic jobs, with the given entries. *)
Definition cron (es : list (string * SchedulerEntry)) : World :=
  initial (TaskBackend_init true 1 0 "mail" None 100 jobs es)
          {| hashes := ∅; lists := ∅ |}.

End demo.

(** * Properties *)

(** ** Preservation through the monad *)

Section Preserves.
Context (R : relation World) `{!PreOrder R}.

Lemma preserves_ret {A} (a : A) : preserves R (ret a).
Proof. intros w. reflexivity. Qed.

Lemma preserves_raise {A} (e : exn) : preserves R (@raise A e).
Proof. intros w. reflexivity. Qed.

Lemma preserves_lift {A} (r : result A) : preserves R (lift r).
Proof. intros w. reflexivity. Qed.

Lemma preserves_get_be : preserves R get_be.
Proof. intros w. reflexivity. Qed.

Lemma preserves_get_store : preserves R get_store.
Proof. intros w. reflexivity. Qed.

Lemma preserves_get_deferreds : preserves R get_deferreds.
Proof. intros w. reflexivity. Qed.

Lemma preserves_bind {A B} (m : M A) (f : A → M B) :
  preserves R m → (∀ a, preserves R (f a)) → preserves R (bind m f).
Proof.
  intros Hm Hf w. unfold bind. specialize (Hm w).
  destruct (m w) as [[a|e] w1]; simpl in *; [|done].
  etrans; [exact Hm | apply Hf].
Qed.

Lemma preserves_try_except {A} (m : M A) (h : exn → M A) :
  preserves R m → (∀ e, preserves R (h e)) → preserves R (try_except m h).
Proof.
  intros Hm Hh w. unfold try_except. specialize (Hm w).
  destruct (m w) as [[a|e] w1]; simpl in *; [done|].
  etrans; [exact Hm | apply Hh].
Qed.
End Preserves.

(** One step through a computation: the monad's combinators, then the
    branches of the code. *)
Ltac preserves_step :=
  lazymatch goal with
  | |- preserves _ (bind _ _) => apply preserves_bind; [tc_solve | | intros ?]
  | |- preserves _ (try_except _ _) => apply preserves_try_except; [tc_solve | | intros ?]
  | |- preserves _ (ret _) => apply preserves_ret; tc_solve
  | |- preserves _ (raise _) => apply preserves_raise; tc_solve
  | |- preserves _ (lift _) => apply preserves_lift; tc_solve
  | |- preserves _ get_be => apply preserves_get_be; tc_solve
  | |- preserves _ get_store => apply preserves_get_store; tc_solve
  | |- preserves _ get_deferreds => apply preserves_get_deferreds; tc_solve
  | |- preserves _ pubsub => apply preserves_ret; tc_solve
  | |- preserves _ (set_store _) => intros ?; apply frame_store
  | |- preserves _ (set_deferreds _) => intros ?; apply frame_deferreds
  | |- preserves _ (emit _) => intros ?; apply frame_emit; exact I
  | |- preserves _ (set_be (update_entries _)) => intros ?; apply frame_entries
  | |- preserves _ (set_be (with_next_run _)) => intros ?; apply frame_next_run
  | |- preserves _ (set_be (update_callbacks _)) => intros ?; apply frame_callbacks
  | |- preserves _ (set_be (update_concurrent_tasks (set_discard _))) =>
      intros ?; apply frame_discard
  | |- preserves _ (match ?x with _ => _ end) => destruct x eqn:?
  end.

Section Framed.
Context (R : relation World) `{!Frame R}.

Lemma preserves_getitem task key : preserves R (getitem task key).
Proof. unfold getitem. repeat preserves_step. Qed.

Lemma preserves_getitem_id task : preserves R (getitem_id task).
Proof. unfold getitem_id. preserves_step; [apply preserves_getitem|]. repeat preserves_step. Qed.

Lemma preserves_gt_num v c : preserves R (gt_num v c).
Proof. unfold gt_num. repeat preserves_step. Qed.

Lemma preserves_hsetnx key field v : preserves R (hsetnx key field v).
Proof. unfold hsetnx. repeat preserves_step. Qed.

Lemma preserves_hmset key fields : preserves R (hmset key fields).
Proof. unfold hmset. repeat preserves_step. Qed.

Lemma preserves_hgetall key : preserves R (hgetall key).
Proof. unfold hgetall. repeat preserves_step. Qed.

Lemma preserves_lpush key item : preserves R (lpush key item).
Proof. unfold lpush. repeat preserves_step. Qed.

Lemma preserves_brpoplpush src dst timeout : preserves R (brpoplpush src dst timeout).
Proof. unfold brpoplpush. repeat preserves_step. Qed.
End Framed.

(** ** Every call but the poll loop keeps a framed relation *)

Create HintDb framed.

Section FramedMethods.
Context (sha1 : string → string).
Context (R : relation World) `{!Frame R}.

Local Hint Resolve preserves_getitem preserves_getitem_id preserves_gt_num
  preserves_hsetnx preserves_hmset preserves_hgetall preserves_lpush
  preserves_brpoplpush : framed.

Local Ltac framed := repeat first [ preserves_step | solve [eauto with framed] ].

Lemma preserves_maybe_queue_task task : preserves R (maybe_queue_task task).
Proof. unfold maybe_queue_task. framed. Qed.

Lemma preserves_get_task task_id : preserves R (get_task task_id).
Proof. unfold get_task. framed. Qed.

Lemma preserves_save_task task_id params : preserves R (save_task task_id params).
Proof. unfold save_task. framed. Qed.

Lemma preserves_new_deferred : preserves R new_deferred.
Proof. unfold new_deferred. framed. Qed.

Lemma preserves_callback d task : preserves R (callback d task).
Proof. unfold callback. framed. Qed.

Lemma preserves_pop_callback task : preserves R (pop_callback task).
Proof. unfold pop_callback. framed. Qed.

Lemma preserves_done task : preserves R (done task).
Proof. unfold done. cbv zeta. framed. Qed.

Local Hint Resolve preserves_maybe_queue_task preserves_get_task
  preserves_save_task preserves_new_deferred preserves_callback
  preserves_pop_callback preserves_done : framed.

Lemma preserves_queue_task jobname meta_params expiry kwargs uid queued :
  preserves R (queue_task sha1 jobname meta_params expiry kwargs uid queued).
Proof. unfold queue_task. framed. Qed.

Lemma preserves_wait_for_task task_id : preserves R (wait_for_task task_id).
Proof. unfold wait_for_task. framed. Qed.

Lemma preserves_task_done_callback task_id : preserves R (task_done_callback task_id).
Proof. unfold task_done_callback. framed. Qed.

Lemma preserves_info task : preserves R (info task).
Proof. unfold info. framed. Qed.

Lemma preserves_load_kwargs task : preserves R (load_kwargs task).
Proof. unfold load_kwargs. framed. Qed.

Local Hint Resolve preserves_queue_task preserves_info preserves_load_kwargs : framed.

Lemma preserves_execute_try worker task task_id time_ended :
  preserves R (execute_try worker task task_id time_ended).
Proof. unfold execute_try, lazy_info_str. framed. Qed.

Lemma preserves_execute_except task e : preserves R (execute_except task e).
Proof. unfold execute_except. framed. Qed.

Local Hint Resolve preserves_execute_try preserves_execute_except : framed.

Lemma preserves_execute_task worker task time_ended finished :
  preserves R (_execute_task worker task time_ended finished).
Proof. unfold _execute_task. framed. Qed.

Lemma preserves_tick_entry name0 now : preserves R (tick_entry name0 now).
Proof. unfold tick_entry, run_job. framed. Qed.

Lemma preserves_tick_loop names now rts w :
  R w (tick_loop names now rts w).2.
Proof.
  revert rts w. induction names as [|name0 names IH]; intros rts w; simpl.
  - reflexivity.
  - pose proof (preserves_tick_entry name0 now w) as Hstep.
    destruct (tick_entry name0 now w) as [[q|e] w1]; simpl in *.
    + etrans; [exact Hstep | apply IH].
    + exact Hstep.
Qed.

Lemma preserves_tick now : preserves R (tick now).
Proof.
  unfold tick. preserves_step; [preserves_step|].
  preserves_step; [preserves_step|].
  preserves_step.
  - intros w.
    pose proof (preserves_tick_loop (entries a).*1 now [] w) as Hloop.
    destruct (tick_loop (entries a).*1 now [] w)
      as [[[[]|e] rts] w1]; simpl in *; [exact Hloop|].
    etrans; [exact Hloop|]. apply (frame_emit _ w1). exact I.
  - framed.
Qed.
End FramedMethods.

(** ** The three framed relations *)

#[global] Instance same_poll_timeout_frame : Frame same_poll_timeout.
Proof.
  split; try (intros; reflexivity).
  split; [intros w; reflexivity|].
  intros w1 w2 w3 H12 H23. unfold same_poll_timeout in *. congruence.
Qed.

Lemma size_discard (i : string) (s : gset string) :
  (size (set_discard i s) ≤ size s)%nat.
Proof. apply subseteq_size. unfold set_discard. apply subseteq_difference_l. done. Qed.

Lemma size_add (i : string) (s : gset string) : (size (set_add i s) ≤ S (size s))%nat.
Proof.
  unfold set_add. destruct (decide (i ∈ s)) as [Hin|Hout].
  - rewrite (subseteq_union_1_L {[i]} s) by (by apply singleton_subseteq_l). lia.
  - rewrite size_union by (by apply disjoint_singleton_l).
    rewrite size_singleton. lia.
Qed.

#[global] Instance keeps_backlog_frame : Frame keeps_backlog.
Proof.
  assert (Hrefl : ∀ w w', be w' = be w → keeps_backlog w w').
  { intros w w' Hbe. unfold keeps_backlog. rewrite Hbe. auto. }
  split; try (intros; apply Hrefl; reflexivity).
  - split.
    + intros w. by apply Hrefl.
    + intros w1 w2 w3 [Hb12 H12] [Hb23 H23]. split; [congruence|].
      intros Hle. apply H23, H12, Hle.
  - intros f w. split; [reflexivity | auto].
  - intros t w. split; [reflexivity | auto].
  - intros f w. split; [reflexivity | auto].
  - intros i w. split; [reflexivity|]. unfold num_concurrent_tasks. simpl.
    pose proof (size_discard i (concurrent_tasks (be w))). lia.
Qed.

Lemma dispatched_app tr1 tr2 :
  dispatched (tr1 ++ tr2) = (dispatched tr1 ++ dispatched tr2)%list.
Proof. apply omap_app. Qed.

Lemma dispatched_benign tr e : benign e → dispatched (tr ++ [e]) = dispatched tr.
Proof.
  intros He. rewrite dispatched_app. destruct e; simpl in *; try done;
    apply app_nil_r.
Qed.

#[global] Instance keeps_drained_frame : Frame keeps_drained.
Proof.
  assert (Hrefl : ∀ w w', max_tasks (be w') = max_tasks (be w) →
            processed (be w') = processed (be w) →
            dispatched (trace w') = dispatched (trace w) → keeps_drained w w').
  { intros w w' Hm Hp Hd. unfold keeps_drained. rewrite Hm, Hp, Hd. auto with lia. }
  split; try (intros; apply Hrefl; reflexivity).
  - split.
    + intros w. by apply Hrefl.
    + intros w1 w2 w3 (Hm12 & Hp12 & Hd12) (Hm23 & Hp23 & Hd23).
      split; [congruence|]. split; [lia|].
      intros Hd. rewrite Hd23, Hd12; [done | done |].
      destruct Hd as [Hne Hle]. split; [congruence | lia].
  - intros e w He. apply Hrefl; [reflexivity | reflexivity |].
    simpl. by apply dispatched_benign.
Qed.

(** ** The poll loop *)

(** Unfolding of the monad on a world. *)
Ltac run_monad :=
  unfold bind, ret, raise, lift, try_except, get_be, set_be, get_store,
    set_store, get_deferreds, set_deferreds, emit, pubsub in *; simpl in *.

Lemma get_task_be task_id w : be (get_task task_id w).2 = be w.
Proof.
  unfold get_task, brpoplpush, hgetall. run_monad.
  repeat case_match; simplify_eq/=; done.
Qed.

Lemma get_task_dispatched task_id w :
  dispatched (trace (get_task task_id w).2) = dispatched (trace w).
Proof.
  unfold get_task, brpoplpush, hgetall. run_monad.
  repeat case_match; simplify_eq/=;
    rewrite ?dispatched_app; simpl; rewrite ?app_nil_r; done.
Qed.

(** What one iteration of the poll loop does to the attributes of the
    backend and to the thread pool: nothing, or, below the backlog and not
    drained, it counts one task more and, unless the record polled carries
    no identifier, adds that identifier and hands the task over. *)
Lemma may_pool_task_cases worker w :
  let w' := (may_pool_task worker w).2 in
  (be w' = be w ∧ dispatched (trace w') = dispatched (trace w)) ∨
  (num_concurrent_tasks (be w) < backlog (be w) ∧ ¬ drained (be w) ∧
   ((be w' = update_processed (λ n, n + 1) (be w) ∧
     dispatched (trace w') = dispatched (trace w)) ∨
    (∃ i task,
       be w' = update_concurrent_tasks (set_add i)
                 (update_processed (λ n, n + 1) (be w)) ∧
       dispatched (trace w') = (dispatched (trace w) ++ [task])%list))).
Proof.
  unfold may_pool_task. run_monad.
  destruct (is_running worker); [|left; simpl; split; [done|by apply dispatched_benign]].
  destruct (thread_pool worker); simpl;
    [|left; simpl; rewrite !dispatched_app; simpl; by rewrite !app_nil_r].
  destruct (num_concurrent_tasks (be w) <? backlog (be w)) eqn:Hlt; simpl;
    [|left; simpl; rewrite !dispatched_app; simpl; by rewrite !app_nil_r].
  apply Z.ltb_lt in Hlt.
  destruct (negb (max_tasks (be w) =? 0) && (max_tasks (be w) <=? processed (be w)))
    eqn:Hdr; simpl.
  { destruct (num_concurrent_tasks (be w) =? 0); simpl; left;
      rewrite !dispatched_app; simpl; by rewrite !app_nil_r. }
  assert (¬ drained (be w)) as Hnd.
  { intros [Hne Hle]. apply andb_false_iff in Hdr as [Hdr|Hdr].
    - apply negb_false_iff, Z.eqb_eq in Hdr. done.
    - apply Z.leb_gt in Hdr. lia. }
  pose proof (get_task_be None w) as Hbe.
  pose proof (get_task_dispatched None w) as Hdi.
  destruct (get_task None w) as [[[task|]|e] w1]; simpl in *.
  - right. split; [done|]. split; [done|].
    unfold getitem_id, getitem. run_monad.
    destruct (task !! "id") as [[| |i|]|]; simpl; rewrite ?Hbe;
      try (left; split; [done|]; rewrite <- Hdi; done).
    right. exists i, task. split; [done|].
    rewrite !dispatched_app, Hdi. simpl. by rewrite app_nil_r.
  - left. rewrite dispatched_app, Hdi. simpl. by rewrite app_nil_r.
  - left. done.
Qed.

Lemma may_pool_task_same_poll_timeout worker :
  preserves same_poll_timeout (may_pool_task worker).
Proof.
  intros w. unfold same_poll_timeout.
  destruct (may_pool_task_cases worker w) as [[-> _]|(_ & _ & [[-> _]|(i & t & -> & _)])];
    reflexivity.
Qed.

Lemma may_pool_task_keeps_backlog worker :
  preserves keeps_backlog (may_pool_task worker).
Proof.
  intros w. unfold keeps_backlog.
  destruct (may_pool_task_cases worker w)
    as [[-> _]|(Hlt & _ & [[-> _]|(i & t & -> & _)])]; simpl; auto.
  split; [done|]. intros _. unfold num_concurrent_tasks in *. simpl.
  pose proof (size_add i (concurrent_tasks (be w))). lia.
Qed.

Lemma may_pool_task_keeps_drained worker :
  preserves keeps_drained (may_pool_task worker).
Proof.
  intros w. unfold keeps_drained.
  destruct (may_pool_task_cases worker w)
    as [[-> ->]|(_ & Hnd & [[-> ->]|(i & t & -> & _)])]; simpl;
    repeat split; auto with lia; done.
Qed.

(** A relation kept by the poll loop and by the frame is kept by every
    action, and by every sequence of actions. *)
Lemma perform_keeps sha1 (R : relation World) `{!Frame R} :
  (∀ worker, preserves R (may_pool_task worker)) →
  ∀ a w, R w (perform sha1 a w).
Proof.
  intros Hpoll [jobname meta expiry kwargs uid queued|worker|worker task t1 t2
               |task_id|task_id|now] w; simpl.
  - apply preserves_queue_task, _.
  - apply Hpoll.
  - apply preserves_execute_task, _.
  - apply preserves_wait_for_task, _.
  - apply preserves_task_done_callback, _.
  - apply preserves_tick, _.
Qed.

Lemma perform_all_keeps sha1 (R : relation World) `{!Frame R} :
  (∀ worker, preserves R (may_pool_task worker)) →
  ∀ acts w, R w (perform_all sha1 acts w).
Proof.
  intros Hpoll acts. unfold perform_all.
  induction acts as [|a acts IH]; intros w; simpl.
  - reflexivity.
  - etrans; [apply (perform_keeps sha1 R Hpoll a w) | apply IH].
Qed.

(** ** The poll time-out *)

(** C10: whatever is passed to the constructor, [poll_timeout] is
    [max(poll_timeout or 0, 2)]: at least 2, and exactly 2 when nothing, zero,
    a negative number or anything below 2 is passed; no call on the backend
    changes the attribute afterwards. *)
Theorem poll_timeout_at_least_two sha1 schedule_periodic0 backlog0 max_tasks0
    name0 (poll_timeout0 : option Z) now registry0 entries0 :
  let self := TaskBackend_init schedule_periodic0 backlog0 max_tasks0 name0
                poll_timeout0 now registry0 entries0 in
  poll_timeout self = Z.max (default 0 poll_timeout0) 2 ∧
  2 ≤ poll_timeout self ∧
  poll_timeout self =
    match poll_timeout0 with
    | None => 2
    | Some t => if t <? 2 then 2 else t
    end ∧
  ∀ st acts,
    poll_timeout (be (perform_all sha1 acts (initial self st))) = poll_timeout self.
Proof.
  simpl. split; [reflexivity|]. split; [lia|]. split.
  - destruct poll_timeout0 as [t|]; simpl; [|reflexivity].
    destruct (Z.ltb_spec t 2); lia.
  - intros st acts.
    apply (perform_all_keeps sha1 same_poll_timeout may_pool_task_same_poll_timeout).
Qed.

(** ** The backlog ceiling *)

Lemma may_pool_task_backoff worker w :
  is_running worker = true → thread_pool worker = true →
  backlog (be w) ≤ num_concurrent_tasks (be w) →
  may_pool_task worker w =
    (Ok tt, {| be := be w; store := store w; deferreds := deferreds w;
               trace := (trace w ++ [Log "info" "%s concurrent requests. Cannot poll."])
                        ++ [CallLater 1] |}).
Proof.
  intros Hrun Hpool Hfull. unfold may_pool_task. run_monad.
  rewrite Hrun, Hpool. simpl.
  destruct (Z.ltb_spec (num_concurrent_tasks (be w)) (backlog (be w))); [lia|].
  reflexivity.
Qed.

Lemma polls_app tr1 tr2 : polls (tr1 ++ tr2) = (polls tr1 ++ polls tr2)%list.
Proof. apply List.filter_app. Qed.

(** C1: with a backlog [N] (a count, so not negative) the concurrency set of
    a backend never holds more than [N] identifiers, whatever is queued,
    polled, executed, waited for or ticked and in whatever order; one
    iteration of [may_pool_task] adds at most one identifier, and only when
    the set is strictly below the backlog; when the set has reached the
    backlog, the iteration (of a running worker with a thread pool, the two
    tests made before) does not poll the store and reschedules itself with a
    delay of 1. *)
Theorem backlog_ceiling sha1 (N : Z) :
  0 ≤ N →
  (∀ schedule_periodic0 max_tasks0 name0 poll_timeout0 now registry0 entries0 st acts,
     num_concurrent_tasks
       (be (perform_all sha1 acts
              (initial (TaskBackend_init schedule_periodic0 N max_tasks0 name0
                          poll_timeout0 now registry0 entries0) st))) ≤ N) ∧
  (∀ worker w,
     let w' := (may_pool_task worker w).2 in
     concurrent_tasks (be w') = concurrent_tasks (be w) ∨
     (num_concurrent_tasks (be w) < backlog (be w) ∧
      ∃ i, concurrent_tasks (be w') = {[i]} ∪ concurrent_tasks (be w))) ∧
  (∀ worker w,
     is_running worker = true → thread_pool worker = true →
     backlog (be w) ≤ num_concurrent_tasks (be w) →
     let w' := (may_pool_task worker w).2 in
     (may_pool_task worker w).1 = Ok tt ∧
     be w' = be w ∧ store w' = store w ∧
     polls (trace w') = polls (trace w) ∧
     trace w' = (trace w ++ [Log "info" "%s concurrent requests. Cannot poll.";
                             CallLater 1])%list).
Proof.
  intros HN. split; [|split].
  - intros periodic max_tasks0 name0 pt now reg es st acts.
    set (w0 := initial _ st).
    destruct (perform_all_keeps sha1 keeps_backlog may_pool_task_keeps_backlog acts w0)
      as [Hb Hle].
    change (backlog (be w0)) with N in Hb, Hle. rewrite Hb in Hle.
    apply Hle. unfold num_concurrent_tasks.
    change (concurrent_tasks (be w0)) with (∅ : gset string).
    rewrite size_empty. lia.
  - intros worker w. cbv zeta.
    destruct (may_pool_task_cases worker w)
      as [[-> _]|(Hlt & _ & [[-> _]|(i & t & -> & _)])]; simpl; auto.
    right. split; [done|]. by exists i.
  - intros worker w Hrun Hpool Hfull.
    rewrite (may_pool_task_backoff worker w Hrun Hpool Hfull). simpl.
    split; [done|]. split; [done|]. split; [done|]. split.
    + rewrite !polls_app. simpl. by rewrite !app_nil_r.
    + by rewrite <- app_assoc.
Qed.

(** ** Draining on [max_tasks] *)

Lemma may_pool_task_stop worker w :
  is_running worker = true → thread_pool worker = true →
  0 < backlog (be w) → drained (be w) → concurrent_tasks (be w) = ∅ →
  may_pool_task worker w =
    (Ok tt, {| be := be w; store := store w; deferreds := deferreds w;
               trace := (trace w ++ [Log "warning" "Processed %s tasks. Restarting."])
                        ++ [WorkerStop] |}).
Proof.
  intros Hrun Hpool Hbacklog [Hne Hle] Hempty. unfold may_pool_task. run_monad.
  rewrite Hrun, Hpool. simpl. unfold num_concurrent_tasks. rewrite Hempty, size_empty.
  change (Z.of_nat 0) with 0.
  apply Z.ltb_lt in Hbacklog. apply Z.eqb_neq in Hne. apply Z.leb_le in Hle.
  rewrite Hbacklog, Hne, Hle. reflexivity.
Qed.

(** C9: with [max_tasks] set (not zero) and reached
    ([processed >= max_tasks]), an iteration of the poll loop that finds the
    concurrency set empty (a running worker with a thread pool and a
    positive backlog, the tests made before) logs, tells the worker to
    stop and does nothing else: it sends nothing to the store and does not
    reschedule itself; and from then on, as from any moment at which
    [max_tasks] is reached, no call on the backend hands a task to the
    thread pool. *)
Theorem drain_on_max_tasks sha1 w :
  max_tasks (be w) ≠ 0 → max_tasks (be w) ≤ processed (be w) →
  (∀ worker,
     is_running worker = true → thread_pool worker = true →
     0 < backlog (be w) → concurrent_tasks (be w) = ∅ →
     let w' := (may_pool_task worker w).2 in
     (may_pool_task worker w).1 = Ok tt ∧
     be w' = be w ∧ store w' = store w ∧
     trace w' = (trace w ++ [Log "warning" "Processed %s tasks. Restarting.";
                             WorkerStop])%list ∧
     ∀ acts, dispatched (trace (perform_all sha1 acts w')) = dispatched (trace w')) ∧
  (∀ acts, dispatched (trace (perform_all sha1 acts w)) = dispatched (trace w)).
Proof.
  intros Hne Hle.
  assert (Hnever : ∀ w0, drained (be w0) →
            ∀ acts, dispatched (trace (perform_all sha1 acts w0)) = dispatched (trace w0)).
  { intros w0 Hdrained acts.
    destruct (perform_all_keeps sha1 keeps_drained may_pool_task_keeps_drained acts w0)
      as (_ & _ & Hd).
    by apply Hd. }
  split; [|by apply Hnever].
  intros worker Hrun Hpool Hbacklog Hempty.
  rewrite (may_pool_task_stop worker w Hrun Hpool Hbacklog (conj Hne Hle) Hempty).
  simpl. split; [done|]. split; [done|]. split; [done|].
  split; [by rewrite <- app_assoc|].
  apply Hnever. by split.
Qed.

(** ** The due-check of a schedule *)

Lemma timedelta_seconds_zero delta :
  Qeq_bool (timedelta_seconds delta) 0 = (Z.max delta 0 =? 0).
Proof.
  apply Bool.eq_iff_eq_true. rewrite Qeq_bool_iff, Z.eqb_eq.
  unfold timedelta_seconds. rewrite Qred_correct. unfold Qeq. simpl. lia.
Qed.

Lemma Schedule_is_due_eq (self : Schedule) last_run_at now :
  Schedule_is_due self last_run_at (Some now) =
  Ok (let remaining := Z.max (run_every self - (now - last_run_at)) 0 in
      if remaining =? 0 then (true, timedelta_seconds (run_every self))
      else (false, seconds remaining)).
Proof.
  unfold Schedule_is_due. simpl. rewrite timedelta_seconds_zero.
  replace (last_run_at + run_every self - now)
    with (run_every self - (now - last_run_at)) by lia.
  destruct (Z.max (run_every self - (now - last_run_at)) 0 =? 0) eqn:Hz; reflexivity.
Qed.

(** C7: for every [last_run_at] and [now], [Schedule.is_due] computes
    [remaining = run_every - (now - last_run_at)], not below zero; it returns
    [(True, run_every in seconds)] when [remaining] is zero and
    [(False, remaining in seconds)] otherwise ([run_every] is a duration, so
    not negative).  With [run_every] = 60 s and [last_run_at = T]:
    [is_due(now = T + 61 s) = (True, 60)] and
    [is_due(now = T + 30 s) = (False, 30)]. *)
Theorem Schedule_is_due_spec (self : Schedule) (last_run_at now : Z) :
  0 ≤ run_every self →
  let remaining := Z.max (run_every self - (now - last_run_at)) 0 in
  Schedule_is_due self last_run_at (Some now) =
    Ok (if remaining =? 0 then (true, seconds (run_every self))
        else (false, seconds remaining)) ∧
  (∀ T a, Schedule_is_due {| run_every := 60000000; anchor := a |} T
            (Some (T + 61000000)) = Ok (true, 60%Q)) ∧
  (∀ T a, Schedule_is_due {| run_every := 60000000; anchor := a |} T
            (Some (T + 30000000)) = Ok (false, 30%Q)).
Proof.
  intros Hpos. cbv zeta. split; [|split].
  - rewrite Schedule_is_due_eq. cbv zeta.
    unfold timedelta_seconds, seconds.
    by rewrite (Z.max_l (run_every self) 0) by lia.
  - intros T a. rewrite Schedule_is_due_eq. simpl.
    replace (60000000 - (T + 61000000 - T)) with (-1000000) by lia. reflexivity.
  - intros T a. rewrite Schedule_is_due_eq. simpl.
    replace (60000000 - (T + 30000000 - T)) with 30000000 by lia. reflexivity.
Qed.

Lemma Schedule_is_due_spec_witness :
  Schedule_is_due {| run_every := 60000000; anchor := None |} 1000 (Some 61001000)
  = Ok (true, 60%Q).
Proof.
  exact (proj1 (Schedule_is_due_spec {| run_every := 60000000; anchor := None |}
                  1000 61001000 ltac:(simpl; lia))).
Defined.

(** ** The lock key and the deduplication of queue requests *)






Lemma channel_inj self a b : channel self a = channel self b → a = b.
Proof.
  unfold channel. intros Heq.
  apply (inj (String.app (name self))) in Heq. by simplify_eq/=.
Qed.

Lemma locks_ne_task_key self i : channel self "locks" ≠ task_key self i.
Proof. unfold task_key. intros Heq. apply channel_inj in Heq. done. Qed.


#[global] Instance same_identity_frame : Frame same_identity.
Proof.
  split; try (intros; split; reflexivity).
  split; [intros w; split; reflexivity|].
  intros w1 w2 w3 [Hn12 Hr12] [Hn23 Hr23]. split; congruence.
Qed.

Section Dedup.
Context (sha1 : string → string).
(** A hexadecimal digest has forty characters. *)
Hypothesis sha1_not_empty : ∀ s, sha1 s ≠ "".

End Dedup.




(** ** The execution wrapper *)

Lemma job_calls_app tr1 tr2 : job_calls (tr1 ++ tr2) = (job_calls tr1 ++ job_calls tr2)%list.
Proof. apply List.filter_app. Qed.

Lemma new_events_app {A} (m : M A) w evs :
  trace (m w).2 = (trace w ++ evs)%list → new_events m w = evs.
Proof. intros Htr. unfold new_events. rewrite Htr. apply drop_app_length. Qed.

(** Bringing a trace built by successive [emit]s to the form
    [trace w ++ events]. *)
Ltac flatten_trace :=
  repeat rewrite <- app_assoc; simpl.

Lemma execute_expired worker task i jobname job s e time_ended finished w :
  task !! "id" = Some (VStr i) →
  task !! "name" = Some (VStr jobname) →
  registry (be w) !! jobname = Some job →
  task !! "status" = Some (VNum s) → states.code states.STARTED < s →
  task !! "expiry" = Some (VNum e) → e ≠ 0 → e < time_ended →
  let revoked : gmap string value :=
    <["time_ended" := VNum finished]>
    (<["status" := VNum (states.code states.REVOKED)]>
    (<["result" := VNone]> ∅)) in
  _execute_task worker task time_ended finished w =
    (Ok i,
     {| be := update_concurrent_tasks (set_discard i) (be w);
        store := {| hashes := <[task_key (be w) i :=
                                  revoked ∪ hash_at (store w) (task_key (be w) i)]>
                                (hashes (store w));
                    lists := lists (store w) |};
        deferreds := deferreds w;
        trace := (trace w ++ [Log "info" "%s timed-out";
                             Hmset (task_key (be w) i) revoked;
                             Log "info" "Finished task %s";
                             Publish (channel (be w) "task_done") i])%list |}).
Proof.
  intros Hid Hname Hreg Hstatus Hfresh Hexpiry Hset Hpast.
  unfold _execute_task, execute_try, execute_except, save_task, hmset,
    getitem_id, getitem, gt_num, get.
  run_monad. rewrite Hid. simpl. rewrite Hname. simpl. rewrite Hreg. simpl.
  rewrite Hstatus. simpl.
  apply Z.ltb_lt in Hfresh. simpl in Hfresh. rewrite Hfresh. simpl.
  rewrite Hexpiry. simpl. apply Z.eqb_neq in Hset. rewrite Hset. simpl.
  apply Z.ltb_lt in Hpast. rewrite Hpast. simpl.
  flatten_trace. reflexivity.
Qed.

(** Case analysis on a scrutinee that is not itself a case analysis: the
    next test the code makes. *)
Ltac next_case :=
  match goal with
  | |- context [match ?x with _ => _ end] =>
      lazymatch x with
      | context [match _ with _ => _ end] => fail
      | _ => destruct x eqn:?; simpl
      end
  end.


(** Reading the events added to a trace of the form [trace w ++ events]. *)
Ltac read_new_events :=
  unfold new_events; simpl; flatten_trace;
  rewrite ?drop_app_length, ?drop_all; simpl.

(** A task whose expiry has passed never reaches the job body, whatever
    else is in its record. *)
Lemma execute_expired_no_job_call worker task e time_ended finished w :
  task !! "expiry" = Some (VNum e) → e ≠ 0 → e < time_ended →
  job_calls (trace (_execute_task worker task time_ended finished w).2)
  = job_calls (trace w).
Proof.
  intros Hexpiry Hset Hpast.
  apply Z.eqb_neq in Hset. apply Z.ltb_lt in Hpast.
  unfold _execute_task, execute_try, execute_except, save_task, hmset,
    getitem_id, getitem, gt_num, get, lazy_info_str, info, load_kwargs.
  run_monad. rewrite Hexpiry. simpl. rewrite Hset, Hpast. simpl.
  repeat next_case; rewrite ?job_calls_app; simpl; rewrite ?app_nil_r; done.
Qed.

(** Nor is any status but REVOKED written for it. *)
Lemma execute_expired_statuses worker task e time_ended finished key w :
  task !! "expiry" = Some (VNum e) → e ≠ 0 → e < time_ended →
  let statuses :=
    persisted_statuses key
      (new_events (_execute_task worker task time_ended finished) w) in
  statuses = [] ∨ statuses = [states.code states.REVOKED].
Proof.
  intros Hexpiry Hset Hpast. cbv zeta.
  apply Z.eqb_neq in Hset. apply Z.ltb_lt in Hpast.
  unfold new_events, _execute_task, execute_try, execute_except, save_task, hmset,
    getitem_id, getitem, gt_num, get, lazy_info_str, info, load_kwargs.
  run_monad. rewrite Hexpiry. simpl. rewrite Hset, Hpast. simpl.
  repeat next_case; read_new_events; auto;
    repeat (destruct (String.eqb _ key); simpl; auto).
Qed.

(** C5: a dispatched task whose expiry is set and earlier than the time of
    the dispatch never reaches the job body, and no status other than
    REVOKED is persisted for it; when the dispatch is a valid one (the job
    is registered and the status of the record is above STARTED, as for
    every task that [queue_task] stored: the two tests made before the
    expiry is looked at) [_execute_task] persists the terminal status
    REVOKED with the result [None], publishes the end of the task and
    releases its slot. *)
Theorem expired_task_revoked worker task e time_ended finished w :
  task !! "expiry" = Some (VNum e) → e ≠ 0 → e < time_ended →
  let r := _execute_task worker task time_ended finished w in
  job_calls (trace r.2) = job_calls (trace w) ∧
  (∀ key,
     let statuses :=
       persisted_statuses key
         (new_events (_execute_task worker task time_ended finished) w) in
     statuses = [] ∨ statuses = [states.code states.REVOKED]) ∧
  ∀ i jobname job s,
    task !! "id" = Some (VStr i) →
    task !! "name" = Some (VStr jobname) →
    registry (be w) !! jobname = Some job →
    task !! "status" = Some (VNum s) → states.code states.STARTED < s →
    let key := task_key (be w) i in
    r.1 = Ok i ∧
    new_events (_execute_task worker task time_ended finished) w =
      [Log "info" "%s timed-out";
       Hmset key (<["time_ended" := VNum finished]>
                 (<["status" := VNum (states.code states.REVOKED)]>
                 (<["result" := VNone]> ∅)));
       Log "info" "Finished task %s";
       Publish (channel (be w) "task_done") i] ∧
    hash_at (store r.2) key !! "status" = Some (VNum (states.code states.REVOKED)) ∧
    hash_at (store r.2) key !! "result" = Some VNone ∧
    concurrent_tasks (be r.2) = concurrent_tasks (be w) ∖ {[i]}.
Proof.
  intros Hexpiry Hset Hpast. cbv zeta. split; [|split].
  - by apply (execute_expired_no_job_call worker task e).
  - intros key. by apply (execute_expired_statuses worker task e).
  - intros i jobname job s Hid Hname Hreg Hstatus Hfresh.
    pose proof (execute_expired worker task i jobname job s e time_ended finished w
                  Hid Hname Hreg Hstatus Hfresh Hexpiry Hset Hpast) as Hrun.
    cbv zeta in Hrun.
    split; [by rewrite Hrun|].
    split; [apply new_events_app; by rewrite Hrun|].
    rewrite Hrun. simpl. unfold hash_at at 1 3. simpl.
    rewrite lookup_insert_eq. simpl.
    split; [by apply lookup_union_Some_l|].
    split; [by apply lookup_union_Some_l|done].
Qed.

Lemma expired_task_revoked_witness :
  let r := _execute_task demo.worker1 demo.resize_task 200 201 demo.polled in
  job_calls (trace r.2) = [] ∧
  hash_at (store r.2) "mail_task:33333333" !! "status"
    = Some (VNum (states.code states.REVOKED)) ∧
  hash_at (store r.2) "mail_task:33333333" !! "result" = Some VNone.
Proof.
  destruct (expired_task_revoked demo.worker1 demo.resize_task 130 200 201 demo.polled)
    as (Hcalls & _ & Hvalid); [vm_compute; reflexivity | lia | lia |].
  destruct (Hvalid "33333333" "resize" demo.resize 7)
    as (_ & _ & Hstatus & Hresult & _);
    [vm_compute; reflexivity | vm_compute; reflexivity | vm_compute; reflexivity
    | vm_compute; reflexivity | simpl; lia |].
  split; [exact Hcalls|]. split; [exact Hstatus | exact Hresult].
Defined.

(** C4 (what the code does): when the body of a job raises, the handler of
    [_execute_task] builds its log message with [task.info()], which raises
    [NameError]; the error leaves the wrapper, the record stays STARTED with
    no result, no end of task is published and the identifier stays in the
    concurrency set. *)
Theorem job_failure_escapes worker task i jobname job s expiry kwargs summary
    time_ended finished w :
  task !! "id" = Some (VStr i) →
  task !! "name" = Some (VStr jobname) →
  registry (be w) !! jobname = Some job →
  task !! "status" = Some (VNum s) → states.code states.STARTED < s →
  task !! "expiry" = Some expiry →
  (expiry = VNone ∨ ∃ e, expiry = VNum e ∧ time_ended ≤ e) →
  task !! "kwargs" = Some (VArgs kwargs) →
  run job kwargs = Raises summary →
  let started : gmap string value :=
    <["status" := VNum (states.code states.STARTED)]>
    (<["time_started" := VNum time_ended]>
    (<["worker" := VStr (aid worker)]> ∅)) in
  _execute_task worker task time_ended finished w =
    (Raise (NameError "task"),
     {| be := be w;
        store := {| hashes := <[task_key (be w) i :=
                                  started ∪ hash_at (store w) (task_key (be w) i)]>
                                (hashes (store w));
                    lists := lists (store w) |};
        deferreds := deferreds w;
        trace := (trace w ++ [Log "info" "starting task %s";
                             Hmset (task_key (be w) i) started;
                             Publish (channel (be w) "task_started") i;
                             JobCall (job_name job) kwargs])%list |}).
Proof.
  intros Hid Hname Hreg Hstatus Hfresh Hexpiry Hlive Hkwargs Hrun.
  apply Z.ltb_lt in Hfresh. simpl in Hfresh.
  unfold _execute_task, execute_try, execute_except, save_task, hmset,
    getitem_id, getitem, gt_num, get, info, load_kwargs.
  run_monad. rewrite Hid. simpl. rewrite Hname. simpl. rewrite Hreg. simpl.
  rewrite Hstatus. simpl. rewrite Hfresh. simpl. rewrite Hexpiry. simpl.
  assert (Hlive' : truthy expiry = false ∨
                   ∃ e, expiry = VNum e ∧ (e <? time_ended) = false).
  { destruct Hlive as [->|(e & -> & Hlive)]; [by left|].
    right. exists e. split; [done | by apply Z.ltb_ge]. }
  destruct Hlive' as [Hfalsy|(e & -> & Hlive')].
  - rewrite Hfalsy. simpl. unfold get. rewrite Hkwargs. simpl.
    destruct kwargs; simpl; rewrite Hrun; simpl; flatten_trace; reflexivity.
  - simpl. rewrite Hlive'. destruct (e =? 0); simpl; unfold get;
      rewrite Hkwargs; simpl;
      destruct kwargs; simpl; rewrite Hrun; simpl; flatten_trace; reflexivity.
Qed.

Lemma job_failure_escapes_witness :
  let r := _execute_task demo.worker1 demo.resize_task 105 106 demo.polled in
  r.1 = Raise (NameError "task") ∧
  hash_at (store r.2) "mail_task:33333333" !! "status"
    = Some (VNum (states.code states.STARTED)) ∧
  hash_at (store r.2) "mail_task:33333333" !! "result" = None ∧
  concurrent_tasks (be r.2) = {["33333333"]} ∧
  new_events (_execute_task demo.worker1 demo.resize_task 105 106) demo.polled =
    [Log "info" "starting task %s";
     Hmset "mail_task:33333333"
       (<["status" := VNum 5]> (<["time_started" := VNum 105]>
         (<["worker" := VStr "worker-1"]> ∅)));
     Publish "mail_task_started" "33333333";
     JobCall "resize" []].
Proof.
  cbv zeta.
  rewrite (job_failure_escapes demo.worker1 demo.resize_task "33333333" "resize"
             demo.resize 7 (VNum 130) [] "ValueError: bad image" 105 106 demo.polled);
    [ | vm_compute; reflexivity | vm_compute; reflexivity | vm_compute; reflexivity
      | vm_compute; reflexivity | simpl; lia | vm_compute; reflexivity
      | right; exists 130; split; [reflexivity | lia]
      | vm_compute; reflexivity | reflexivity ].
  vm_compute. repeat split; reflexivity.
Defined.

(** ** The statuses persisted for a task *)

#[global] Instance extends_frame : Frame extends.
Proof.
  split; try (intros; exists []; simpl; by rewrite app_nil_r).
  - split.
    + intros w. exists []. by rewrite app_nil_r.
    + intros w1 w2 w3 [evs1 H12] [evs2 H23]. exists (evs1 ++ evs2)%list.
      by rewrite H23, H12, app_assoc.
  - intros e w _. by exists [e].
Qed.






(** The three statuses of a task that is queued, started and run to its
    end, as they are written in its hash. *)
Example statuses_of_a_successful_task :
  persisted_statuses "mail_task:11111111" (trace demo.finished_email)
  = [states.code states.QUEUED; states.code states.STARTED;
     states.code states.SUCCESS].
Proof. vm_compute. reflexivity. Qed.

(** ** Waiting for a task *)

(** C8 (what the code does): [wait_for_task] asks the stored task whether
    it is done, and [Task.done] fails on the attribute [READY_STATES],
    which the task does not have.  So for every stored record, whatever its
    status, the call is left with [AttributeError]: it does not resolve
    with the record, it clears no handle and registers none; all it has
    done is to read the record from the store. *)
Theorem wait_for_task_attribute_error task_id w :
  task_id ≠ "" →
  hash_at (store w) (task_key (be w) task_id) ≠ ∅ →
  wait_for_task task_id w =
    (Raise (AttributeError "READY_STATES"),
     {| be := be w; store := store w; deferreds := deferreds w;
        trace := (trace w ++ [Hgetall (task_key (be w) task_id)])%list |}).
Proof.
  intros Hid Hstored.
  unfold wait_for_task, get_task, hgetall, done.
  run_monad.
  apply String.eqb_neq in Hid. repeat (rewrite Hid; simpl).
  rewrite bool_decide_eq_false_2 by done. reflexivity.
Qed.

Lemma wait_for_task_attribute_error_witness :
  hash_at (store demo.finished_email) "mail_task:11111111" !! "status"
    = Some (VNum (states.code states.SUCCESS)) ∧
  let r := wait_for_task "11111111" demo.finished_email in
  r.1 = Raise (AttributeError "READY_STATES") ∧
  callbacks (be r.2) = callbacks (be demo.finished_email) ∧
  deferreds r.2 = deferreds demo.finished_email.
Proof.
  split; [vm_compute; reflexivity|]. cbv zeta.
  rewrite (wait_for_task_attribute_error "11111111" demo.finished_email).
  - split; [reflexivity|]. split; reflexivity.
  - discriminate.
  - intros Hempty.
    assert (hash_at (store demo.finished_email) (task_key (be demo.finished_email)
              "11111111") !! "id" = Some (VStr "11111111")) as Hid
      by (vm_compute; reflexivity).
    rewrite Hempty in Hid. discriminate.
Defined.

(** ** One tick of the scheduler *)

(** The loop over the entries ends at the first entry whose evaluation
    raises: the entries after it are not looked at. *)
Lemma tick_loop_stops now e before name0 after :
  ∀ rts w rts1 w1 w1',
    tick_loop before now rts w = ((Ok tt, rts1), w1) →
    tick_entry name0 now w1 = (Raise e, w1') →
    tick_loop (before ++ name0 :: after) now rts w = ((Raise e, rts1), w1').
Proof.
  induction before as [|b before IH]; intros rts w rts1 w1 w1' Hbefore Hbad; simpl in *.
  - simplify_eq. by rewrite Hbad.
  - destruct (tick_entry b now w) as [[q|e'] w0]; [|done].
    by apply IH with w1.
Qed.

Lemma tick_never_raises now w : (tick (Some now) w).1 = Ok tt.
Proof.
  unfold tick. run_monad.
  destruct (schedule_periodic (be w)); simpl; [|done].
  destruct (tick_loop (entries (be w)).*1 (Some now) [] w)
    as [[[[]|e] [|first others]] w1]; simpl; done.
Qed.

Lemma get_entry_set_entry_ne n m entry es :
  n ≠ m → get_entry n (set_entry m entry es) = get_entry n es.
Proof.
  intros Hne. induction es as [|[k e] es IH]; simpl; [done|].
  destruct (String.eqb_spec k m) as [->|Hkm]; simpl.
  - by destruct (String.eqb_spec m n) as [->|_].
  - by rewrite IH.
Qed.

(** The evaluation of an entry sends nothing to the store and leaves the
    other entries as they are. *)
Lemma tick_entry_frame name0 now w :
  let w' := (tick_entry name0 now w).2 in
  store w' = store w ∧
  ∀ n, n ≠ name0 → get_entry n (entries (be w')) = get_entry n (entries (be w)).
Proof.
  cbv zeta. unfold tick_entry, run_job. run_monad.
  destruct (get_entry name0 (entries (be w))) as [entry|]; simpl; [|done].
  destruct (SchedulerEntry_is_due entry now) as [[[[] q]|e] entry']; simpl;
    (split; [done|]); intros n Hne; by apply get_entry_set_entry_ne.
Qed.

Lemma tick_loop_frame names now :
  ∀ rts w,
    let w' := (tick_loop names now rts w).2 in
    store w' = store w ∧
    ∀ n, n ∉ names → get_entry n (entries (be w')) = get_entry n (entries (be w)).
Proof.
  induction names as [|name0 names IH]; intros rts w; simpl; [done|].
  destruct (tick_entry_frame name0 now w) as [Hstore Hentries].
  destruct (tick_entry name0 now w) as [[q|e] w1]; simpl in *.
  - destruct (IH (if Qeq_bool q 0 then rts else (rts ++ [q])%list) w1) as [Hstore' Hentries'].
    split; [congruence|].
    intros n Hn. apply not_elem_of_cons in Hn as [Hne Hn].
    rewrite Hentries' by done. by apply Hentries.
  - split; [done|].
    intros n Hn. apply not_elem_of_cons in Hn as [Hne Hn]. by apply Hentries.
Qed.

(** An entry that is due cannot be enqueued: [tick] calls [run_job], a
    method the backend does not have. *)
Lemma tick_entry_due name0 now entry next_time_to_run w :
  get_entry name0 (entries (be w)) = Some entry →
  (SchedulerEntry_is_due entry now).1 = Ok (true, next_time_to_run) →
  (tick_entry name0 now w).1 = Raise (AttributeError "run_job").
Proof.
  intros Hentry Hdue. unfold tick_entry, run_job. run_monad. rewrite Hentry.
  destruct (SchedulerEntry_is_due entry now) as [due entry']. simpl in *.
  by rewrite Hdue.
Qed.

(** C6 (what the code does): the [try] of [tick] encloses the whole loop
    over the entries.  An exception raised while one entry is evaluated is
    caught and logged, and it ends the loop: the tick goes on from the
    world and the remaining times of the moment of the failure, whatever
    entries come after the failing one.  Those are not evaluated in that
    tick: they are left as they were and their times to the next run do not
    count for [next_run]; nothing is sent to the store.  With a [now] the
    tick then returns; without one it is left with [NameError] where
    [next_run] is computed. *)
Theorem tick_stops_at_first_error now e before name0 after rts1 w w1 w1' :
  schedule_periodic (be w) = true →
  (entries (be w)).*1 = (before ++ name0 :: after)%list →
  tick_loop before now [] w = ((Ok tt, rts1), w1) →
  tick_entry name0 now w1 = (Raise e, w1') →
  let r := tick now w in
  trace r.2 = (trace w1' ++ [Log "exception" "Unhandled error in task backend"])%list ∧
  store r.2 = store w ∧
  (∀ n, n ∉ before → n ≠ name0 →
        get_entry n (entries (be r.2)) = get_entry n (entries (be w))) ∧
  match now with
  | Some t =>
      r.1 = Ok tt ∧
      be r.2 = with_next_run
                 match rts1 with
                 | [] => t
                 | first :: others => t + Qfloor (min_remaining first others * 1000000)
                 end (be w1')
  | None => r.1 = Raise (NameError "datetime") ∧ be r.2 = be w1'
  end.
Proof.
  intros Hperiodic Hnames Hbefore Hbad. cbv zeta.
  destruct (tick_loop_frame before now [] w) as [Hstore1 Hentries1].
  rewrite Hbefore in Hstore1, Hentries1. simpl in Hstore1, Hentries1.
  destruct (tick_entry_frame name0 now w1) as [Hstore2 Hentries2].
  rewrite Hbad in Hstore2, Hentries2. simpl in Hstore2, Hentries2.
  assert (Hentries : ∀ n, n ∉ before → n ≠ name0 →
            get_entry n (entries (be w1')) = get_entry n (entries (be w))).
  { intros n Hn Hne. rewrite Hentries2 by done. by apply Hentries1. }
  unfold tick. run_monad. rewrite Hperiodic. simpl. rewrite Hnames.
  rewrite (tick_loop_stops now e before name0 after [] w rts1 w1 w1' Hbefore Hbad).
  simpl. destruct now as [t|]; simpl.
  - destruct rts1 as [|first others]; simpl;
      (split; [done|]); (split; [congruence|]); (split; [exact Hentries | done]).
  - split; [done|]. split; [congruence|]. split; [exact Hentries | done].
Qed.

Lemma tick_stops_at_first_error_witness :
  let bad_first := demo.cron [("resize", demo.bad_entry); ("send_email", demo.good_entry)] in
  let bad_last := demo.cron [("send_email", demo.good_entry); ("resize", demo.bad_entry)] in
  (SchedulerEntry_is_due demo.good_entry (Some 30000000)).1 = Ok (false, 30%Q) ∧
  (tick (Some 30000000) bad_first).1 = Ok tt ∧
  trace (tick (Some 30000000) bad_first).2
    = [Log "exception" "Unhandled error in task backend"] ∧
  next_run (be (tick (Some 30000000) bad_first).2) = 30000000 ∧
  next_run (be (tick (Some 30000000) bad_last).2) = 60000000.
Proof.
  cbv zeta. split; [vm_compute; reflexivity|].
  destruct (tick_stops_at_first_error (Some 30000000)
              ZeroDivisionError [] "resize" ["send_email"] []
              (demo.cron [("resize", demo.bad_entry); ("send_email", demo.good_entry)])
              (demo.cron [("resize", demo.bad_entry); ("send_email", demo.good_entry)])
              (demo.cron [("resize", demo.bad_entry); ("send_email", demo.good_entry)]))
    as (Htrace & _ & _ & Hres & Hbe);
    [reflexivity | reflexivity | reflexivity | vm_compute; reflexivity |].
  split; [exact Hres|]. split; [exact Htrace|].
  split; [rewrite Hbe; reflexivity | vm_compute; reflexivity].
Defined.

(** ** The theorems on the poll loop, at work on the small deployment *)

Lemma backlog_ceiling_witness :
  let acts := [Queue "resize" ∅ None [] "55555555" 100;
               Queue "resize" ∅ None [] "66666666" 101;
               Poll demo.worker1; Poll demo.worker1] in
  num_concurrent_tasks (be (perform_all demo.digest acts demo.world0)) ≤ 1 ∧
  dispatched (trace (perform_all demo.digest acts demo.world0))
    = [hash_at (store (perform_all demo.digest acts demo.world0)) "mail_task:55555555"].
Proof.
  cbv zeta. split.
  - exact (proj1 (backlog_ceiling demo.digest 1 ltac:(lia)) false 1 "mail" None 100
             demo.jobs [] {| hashes := ∅; lists := ∅ |} _).
  - vm_compute. reflexivity.
Defined.

Lemma drain_on_max_tasks_witness :
  let r := may_pool_task demo.worker1 demo.finished_email in
  r.1 = Ok tt ∧
  trace r.2 = (trace demo.finished_email
               ++ [Log "warning" "Processed %s tasks. Restarting."; WorkerStop])%list ∧
  ∀ acts, dispatched (trace (perform_all demo.digest acts r.2)) = dispatched (trace r.2).
Proof.
  cbv zeta.
  destruct (drain_on_max_tasks demo.digest demo.finished_email) as [Hstop _];
    [vm_compute; discriminate | vm_compute; discriminate |].
  destruct (Hstop demo.worker1) as (Hres & _ & _ & Htrace & Hnever);
    [reflexivity | reflexivity | vm_compute; reflexivity | vm_compute; reflexivity |].
  split; [exact Hres|]. split; [exact Htrace | exact Hnever].
Defined.

(** ** Further properties of the queuing protocol and of the tick *)

(** A request for a job that is not registered raises [TaskNotAvailable]
    and leaves the backend, the store and the trace as they are. *)
Theorem queue_unknown_job sha1 jobname (meta_params : Task) expiry kwargs uid queued w :
  registry (be w) !! jobname = None →
  queue_task sha1 jobname meta_params expiry kwargs uid queued w
  = (Raise (TaskNotAvailable jobname), w).
Proof.
  intros Hreg. unfold queue_task. run_monad. rewrite Hreg. reflexivity.
Qed.

Lemma queue_unknown_job_witness :
  queue_task demo.digest "backup" ∅ None [] "77777777" 100 demo.world0
  = (Raise (TaskNotAvailable "backup"), demo.world0).
Proof. apply queue_unknown_job. reflexivity. Defined.

(** The insert of a task that carries no lock key. *)
Lemma maybe_queue_task_unlocked task i w :
  task !! "lock_id" = Some VNone → task !! "id" = Some (VStr i) →
  let w' := (maybe_queue_task task w).2 in
  (maybe_queue_task task w).1 = Ok (Some task) ∧
  be w' = be w ∧
  hash_at (store w') (channel (be w) "locks")
    = hash_at (store w) (channel (be w) "locks") ∧
  hash_at (store w') (task_key (be w) i)
    = task ∪ hash_at (store w) (task_key (be w) i) ∧
  list_at (store w') (channel (be w) "inqueue")
    = i :: list_at (store w) (channel (be w) "inqueue").
Proof.
  intros Hlock Hid. cbv zeta.
  unfold maybe_queue_task, getitem_id, getitem, hmset, lpush. run_monad.
  rewrite Hlock. simpl. rewrite Hid. simpl.
  unfold hash_at, list_at. simpl.
  pose proof (locks_ne_task_key (be w) i) as Hkeys.
  rewrite !lookup_insert_eq, lookup_insert_ne by done. done.
Qed.

(** A request for a job that may overlap takes no lock: the task is stored
    with the status QUEUED and its identifier is pushed on the queue,
    whatever locks are held. *)
Theorem overlapping_job_always_queued sha1 jobname job expiry kwargs uid queued w :
  registry (be w) !! jobname = Some job →
  resolve_can_overlap job kwargs = true →
  let i := String.substring 0 8 uid in
  let w' := (queue_task sha1 jobname ∅ expiry kwargs uid queued w).2 in
  list_at (store w') (channel (be w) "inqueue")
    = i :: list_at (store w) (channel (be w) "inqueue") ∧
  hash_at (store w') (task_key (be w) i) !! "status"
    = Some (VNum (states.code states.QUEUED)) ∧
  hash_at (store w') (task_key (be w) i) !! "lock_id" = Some VNone ∧
  hash_at (store w') (channel (be w) "locks")
    = hash_at (store w) (channel (be w) "locks").
Proof.
  intros Hreg Hov. cbv zeta.
  unfold queue_task. run_monad. rewrite Hreg.
  unfold generate_task_ids. rewrite Hov. simpl.
  rewrite (left_id_L ∅ (∪)).
  match goal with |- context [maybe_queue_task ?t w] => set (task := t) end.
  destruct (maybe_queue_task_unlocked task (String.substring 0 8 uid) w)
    as (Hres & Hbe & Hlocks & Hrecord & Hqueue); [done | done |].
  destruct (maybe_queue_task task w) as [r w1]. simpl in *. subst r.
  unfold getitem_id, getitem. run_monad.
  replace (task !! "id") with (Some (VStr (String.substring 0 8 uid))) by done.
  simpl.
  assert (Hfields : hash_at (store w1) (task_key (be w) (String.substring 0 8 uid))
                      !! "status" = Some (VNum 7) ∧
                    hash_at (store w1) (task_key (be w) (String.substring 0 8 uid))
                      !! "lock_id" = Some VNone).
  { rewrite Hrecord. split; by apply lookup_union_Some_l. }
  destruct Hfields as [Hstatus Hnolock].
  destruct (get_entry (job_name job) (entries (be w))); simpl; done.
Qed.

Lemma overlapping_job_always_queued_witness :
  list_at (store (queue_task demo.digest "resize" ∅ None [] "33333333" 100
                    demo.world0).2) "mail_inqueue" = ["33333333"].
Proof.
  destruct (overlapping_job_always_queued demo.digest "resize" demo.resize None []
              "33333333" 100 demo.world0) as [Hqueue _];
    [reflexivity | reflexivity |].
  exact Hqueue.
Defined.
